(** * opsult: Option, Result and Future

    A shallow embedding of [src/Option.ts] and [src/Future.ts] together with
    the properties their specification states about them.

    Host values are typed: where TypeScript writes [T | undefined] the
    embedding uses [js T].  Code that can throw returns a [Completion];
    code that runs user callbacks threads a state through them, so that
    "the callback is not invoked" is an observable fact (the state is
    untouched, whatever the callback does). *)

From stdpp Require Import base list strings.

Set Default Proof Using "Type".

(** ** Host language *)

(** [T | undefined]: an untagged union with the host's "no value" sentinel. *)
Inductive js (T : Type) : Type :=
| undefined : js T
| defined (t : T) : js T.
Arguments undefined {T}.
Arguments defined {T} t.

(** How a call ends: it returns a value or it throws one. *)
Inductive Completion (X A : Type) : Type :=
| Normal (a : A) : Completion X A
| Throws (x : X) : Completion X A.
Arguments Normal {X A} a.
Arguments Throws {X A} x.

(** The host's [new Error(message)], as a value of the type [X] of things
    that can be thrown. *)
Class HostError (X : Type) : Type := new_Error : string -> X.

(** Errors identified by their message alone. *)
#[export] Instance string_HostError : HostError string := fun message => message.

(** Effectful host code: a state [S] that callbacks may read and write, and
    a completion. *)
Definition Eff (S X A : Type) : Type := S -> Completion X A * S.

Definition ret {S X A} (a : A) : Eff S X A := fun s => (Normal a, s).

Definition throw {S X A} (x : X) : Eff S X A := fun s => (Throws x, s).

Definition bind {S X A B} (m : Eff S X A) (k : A -> Eff S X B) : Eff S X B :=
  fun s =>
    match m s with
    | (Normal a, s') => k a s'
    | (Throws x, s') => (Throws x, s')
    end.

#[export] Instance Eff_ret {S X} : MRet (Eff S X) := fun A => ret.
#[export] Instance Eff_bind {S X} : MBind (Eff S X) := fun A B k m => bind m k.

(** A callback that always returns. *)
Definition returns {S X A B} (f : A -> Eff S X B) : Prop :=
  forall a s, exists b s', f a s = (Normal b, s').

(** A callback instrumented with a counter of its invocations. *)
Definition counted {S X A B} (f : A -> Eff S X B) : A -> Eff (nat * S) X B :=
  fun a '(calls, s) =>
    match f a s with
    | (c, s') => (c, (Datatypes.S calls, s'))
    end.

(** ** Option (src/Option.ts) *)

Module Option.

Record Option (T : Type) : Type := mkOption {
  _value : js T;
  _isSome : bool
}.
Arguments mkOption {T} _ _.
Arguments _value {T} _.
Arguments _isSome {T} _.

Definition Some {T} (value : js T) : Option T := mkOption value true.

Definition _none {T} : Option T := mkOption undefined false.

Definition None {T} : Option T := _none.

Definition isSome {T} (this : Option T) : bool := _isSome this.

Definition isNone {T} (this : Option T) : bool := negb (_isSome this).

Definition unwrap_message : string := "Called Option::unwrap on None"%string.

Section Methods.
Context {S X : Type} `{HostError X}.

Definition unwrap {T} (this : Option T) : Eff S X (js T) :=
  if _isSome this then ret (_value this)
  else throw (new_Error unwrap_message).

Definition unwrapOr {T} (this : Option T) (defaultValue : js T) : Eff S X (js T) :=
  if _isSome this then ret (_value this)
  else ret defaultValue.

Definition unwrapOrElse {T} (this : Option T) (defaultValue : unit -> Eff S X (js T))
  : Eff S X (js T) :=
  if _isSome this then ret (_value this)
  else defaultValue tt.

Definition map {T U} (this : Option T) (f : js T -> Eff S X (js U)) : Eff S X (Option U) :=
  if _isSome this then u ← f (_value this); ret (Some u)
  else ret None.

Definition or {T} (this other : Option T) : Eff S X (Option T) :=
  if _isSome this then ret this
  else ret other.

Definition orElse {T} (this : Option T) (defaultValue : unit -> Eff S X (Option T))
  : Eff S X (Option T) :=
  if _isSome this then ret this
  else defaultValue tt.

Definition and {T U} (this : Option T) (other : Option U) : Eff S X (Option U) :=
  if _isSome this then ret other
  else ret None.

Definition andThen {T U} (this : Option T) (other : js T -> Eff S X (Option U))
  : Eff S X (Option U) :=
  if _isSome this then other (_value this)
  else ret None.

Definition match_ {T U} (this : Option T) (some : js T -> Eff S X (js U))
    (none : unit -> Eff S X (js U)) : Eff S X (js U) :=
  if _isSome this then some (_value this)
  else none tt.

(** A call of one of the methods of the class, with its arguments; the
    index is the type of what the call returns. *)
Inductive Call (T U : Type) : Type -> Type :=
| call_isSome : Call T U bool
| call_isNone : Call T U bool
| call_unwrap : Call T U (js T)
| call_unwrapOr (defaultValue : js T) : Call T U (js T)
| call_unwrapOrElse (defaultValue : unit -> Eff S X (js T)) : Call T U (js T)
| call_map (f : js T -> Eff S X (js U)) : Call T U (Option U)
| call_or (other : Option T) : Call T U (Option T)
| call_orElse (defaultValue : unit -> Eff S X (Option T)) : Call T U (Option T)
| call_and (other : Option U) : Call T U (Option U)
| call_andThen (other : js T -> Eff S X (Option U)) : Call T U (Option U)
| call_match (some : js T -> Eff S X (js U)) (none : unit -> Eff S X (js U))
    : Call T U (js U).

Definition invoke {T U R} (c : Call T U R) (this : Option T) : Eff S X R :=
  match c in Call _ _ R return Eff S X R with
  | call_isSome _ _ => ret (isSome this)
  | call_isNone _ _ => ret (isNone this)
  | call_unwrap _ _ => unwrap this
  | call_unwrapOr _ _ d => unwrapOr this d
  | call_unwrapOrElse _ _ d => unwrapOrElse this d
  | call_map _ _ f => map this f
  | call_or _ _ other => or this other
  | call_orElse _ _ d => orElse this d
  | call_and _ _ other => and this other
  | call_andThen _ _ other => andThen this other
  | call_match _ _ some none => match_ this some none
  end.

Definition is_unwrap {T U R} (c : Call T U R) : bool :=
  match c with
  | call_unwrap _ _ => true
  | _ => false
  end.

(** The callbacks handed to a call all return. *)
Definition callbacks_return {T U R} (c : Call T U R) : Prop :=
  match c with
  | call_unwrapOrElse _ _ d => returns d
  | call_map _ _ f => returns f
  | call_orElse _ _ d => returns d
  | call_andThen _ _ other => returns other
  | call_match _ _ some none => returns some /\ returns none
  | _ => True
  end.

(** The call of [c] on [this] in state [s] runs a callback that throws [x]
    and leaves the state [s']. *)
Definition callback_throws {T U R} (c : Call T U R) (this : Option T) (s : S)
    (x : X) (s' : S) : Prop :=
  match c with
  | call_unwrapOrElse _ _ d => d tt s = (Throws x, s')
  | call_map _ _ f => f (_value this) s = (Throws x, s')
  | call_orElse _ _ d => d tt s = (Throws x, s')
  | call_andThen _ _ other => other (_value this) s = (Throws x, s')
  | call_match _ _ some none =>
      some (_value this) s = (Throws x, s') \/ none tt s = (Throws x, s')
  | _ => False
  end.

End Methods.

(** The constructor of the class is protected: the Options a program holds
    are those the two factories make. *)
Definition from_factory {T} (o : Option T) : Prop :=
  o = None \/ exists value, o = Some value.

End Option.

(** ** Result *)

Module Result.

(** Modelled from the spec: the [Result] class ([src/Result.ts] is not among
    the sources).  A tagged union of [Ok(value)] and [Err(error)], built by
    the factories [ok] and [err]; [isOk]/[isErr] test the variant; [unwrap]
    returns the success payload and fails, with an error that embeds the
    [Err] payload, on [Err]; [unwrapErr] returns the error payload and fails
    on [Ok]. *)
Inductive Result (T E : Type) : Type :=
| Ok (value : T) : Result T E
| Err (error : E) : Result T E.
Arguments Ok {T E} value.
Arguments Err {T E} error.

(** Modelled from the spec: the error raised by unwrapping the wrong variant;
    it keeps the payload that was there. *)
Inductive Misuse (T E : Type) : Type :=
| UnwrapOnErr (error : E) : Misuse T E
| UnwrapErrOnOk (value : T) : Misuse T E.
Arguments UnwrapOnErr {T E} error.
Arguments UnwrapErrOnOk {T E} value.

Definition ok {T E} (value : T) : Result T E := Ok value.

Definition err {T E} (error : E) : Result T E := Err error.

Definition isOk {T E} (this : Result T E) : bool :=
  match this with Ok _ => true | Err _ => false end.

Definition isErr {T E} (this : Result T E) : bool := negb (isOk this).

Definition unwrap {T E} (this : Result T E) : Completion (Misuse T E) T :=
  match this with
  | Ok value => Normal value
  | Err error => Throws (UnwrapOnErr error)
  end.

Definition unwrapErr {T E} (this : Result T E) : Completion (Misuse T E) E :=
  match this with
  | Ok value => Throws (UnwrapErrOnOk value)
  | Err error => Normal error
  end.

End Result.

(** ** The host's promises

    A promise is a one-shot cell.  A value of type [State A] used as an
    argument stands for the state a promise eventually reaches: [Pending]
    there means that it never settles.  Reasons of rejection and thrown
    values share the type [X]. *)

Module Promise.

Inductive State (X A : Type) : Type :=
| Pending : State X A
| Fulfilled (value : A) : State X A
| Rejected (reason : X) : State X A.
Arguments Pending {X A}.
Arguments Fulfilled {X A} value.
Arguments Rejected {X A} reason.

Definition is_pending {X A} (p : State X A) : bool :=
  match p with Pending => true | _ => false end.

Definition is_rejected {X A} (p : State X A) : bool :=
  match p with Rejected _ => true | _ => false end.

(** The resolving functions of a promise, for a resolution that is not a
    thenable: the first call of either settles the promise, later calls do
    nothing. *)
Definition resolve {X A} (value : A) (p : State X A) : State X A :=
  match p with
  | Pending => Fulfilled value
  | _ => p
  end.

Definition reject {X A} (reason : X) (p : State X A) : State X A :=
  match p with
  | Pending => Rejected reason
  | _ => p
  end.

Section Reactions.
Context {S X : Type}.

(** [p.then(onFulfilled)]: the reaction runs if [p] is fulfilled, and the
    derived promise takes what the reaction returns or throws; a rejection
    of [p] passes to the derived promise, no reaction run.  The result is the
    state of the derived promise. *)
Definition then_ {A B} (p : State X A) (onFulfilled : A -> Eff S X B)
  : Eff S X (State X B) :=
  fun s =>
    match p with
    | Pending => (Normal Pending, s)
    | Rejected reason => (Normal (Rejected reason), s)
    | Fulfilled value =>
        match onFulfilled value s with
        | (Normal b, s') => (Normal (Fulfilled b), s')
        | (Throws x, s') => (Normal (Rejected x), s')
        end
    end.

(** [p.catch(onRejected)]. *)
Definition catch_ {A} (p : State X A) (onRejected : X -> Eff S X A)
  : Eff S X (State X A) :=
  fun s =>
    match p with
    | Pending => (Normal Pending, s)
    | Fulfilled value => (Normal (Fulfilled value), s)
    | Rejected reason =>
        match onRejected reason s with
        | (Normal a, s') => (Normal (Fulfilled a), s')
        | (Throws x, s') => (Normal (Rejected x), s')
        end
    end.

End Reactions.

(** *** Promise.all

    The record of one call of [Promise.all]: the slot of each input (empty
    until its element function has been called), the count of inputs still
    awaited and the promise that is returned. *)
Record AllRecord (X A : Type) : Type := mkAll {
  all_values : list (option A);
  remainingElementsCount : nat;
  all_promise : State X (list A)
}.
Arguments mkAll {X A} _ _ _.
Arguments all_values {X A} _.
Arguments remainingElementsCount {X A} _.
Arguments all_promise {X A} _.

Section All.
Context {X A : Type}.

(** The array handed to the returned promise. *)
Definition CreateArrayFromList (values : list (option A)) : list A :=
  omap id values.

(** After the inputs have been iterated: one empty slot per input, and the
    returned promise already fulfilled when there is none. *)
Definition all_start (n : nat) : AllRecord X A :=
  mkAll (replicate n None) n
        (match n with 0 => Fulfilled [] | _ => Pending end).

(** The resolve element function of input [index]. *)
Definition resolve_element (index : nat) (x : A) (r : AllRecord X A) : AllRecord X A :=
  match all_values r !! index with
  | Some None =>
      let values := <[index := Some x]> (all_values r) in
      let remaining := pred (remainingElementsCount r) in
      mkAll values remaining
            (match remaining with
             | 0 => resolve (CreateArrayFromList values) (all_promise r)
             | _ => all_promise r
             end)
  | _ => r
  end.

(** The reject function of the returned promise, given to every input. *)
Definition reject_element (reason : X) (r : AllRecord X A) : AllRecord X A :=
  mkAll (all_values r) (remainingElementsCount r) (reject reason (all_promise r)).

(** Input [index] settles and its reaction runs. *)
Definition deliver (inputs : list (State X A)) (r : AllRecord X A) (index : nat)
  : AllRecord X A :=
  match inputs !! index with
  | Some (Fulfilled x) => resolve_element index x r
  | Some (Rejected reason) => reject_element reason r
  | _ => r
  end.

Definition all_run (inputs : list (State X A)) (order : list nat) : AllRecord X A :=
  foldl (deliver inputs) (all_start (length inputs)) order.

(** [Promise.all(inputs)], the inputs settling in the order [order] (a list
    of their indices; an input that stays pending is skipped). *)
Definition all (inputs : list (State X A)) (order : list nat) : State X (list A) :=
  all_promise (all_run inputs order).

(** The reason of the first input of [order] that is rejected. *)
Fixpoint first_rejection (inputs : list (State X A)) (order : list nat) : option X :=
  match order with
  | [] => None
  | index :: rest =>
      match inputs !! index with
      | Some (Rejected reason) => Some reason
      | _ => first_rejection inputs rest
      end
  end.

(** The number of empty slots. *)
Fixpoint unset (values : list (option A)) : nat :=
  match values with
  | [] => 0
  | None :: rest => S (unset rest)
  | Some _ :: rest => unset rest
  end.

(** What holds of the record once the inputs of [delivered] have settled:
    the filled slots are those of the fulfilled inputs delivered, with their
    values; the count is the number of empty slots; the returned promise is
    rejected by the first rejection delivered and is otherwise fulfilled
    exactly when no slot is empty. *)
Definition all_invariant (inputs : list (State X A)) (delivered : list nat)
    (r : AllRecord X A) : Prop :=
  length (all_values r) = length inputs /\
  (forall j x, all_values r !! j = Some (Some x) <->
               j ∈ delivered /\ inputs !! j = Some (Fulfilled x)) /\
  remainingElementsCount r = unset (all_values r) /\
  all_promise r =
    match first_rejection inputs delivered with
    | Some reason => Rejected reason
    | None =>
        match remainingElementsCount r with
        | 0 => Fulfilled (CreateArrayFromList (all_values r))
        | _ => Pending
        end
    end.

End All.

End Promise.

(** ** Future (src/Future.ts) *)

Module Future.
Import Result Promise.

(** A [Future<T, E>] is a promise of a [Result<T, E>]. *)
Definition Future (X T E : Type) : Type := State X (Result T E).

(** How the host represents, as a thrown value, the error of a failed
    [unwrap] or [unwrapErr]. *)
Class MisuseError (X T E : Type) : Type := thrown_misuse : Misuse T E -> X.

(** The error itself as the thrown value. *)
Definition Misuse_self {T E} : MisuseError (Misuse T E) T E := fun m => m.


(** A call of a method of [Result] from effectful code. *)
Definition method {S X T E A} `{MisuseError X T E} (c : Completion (Misuse T E) A)
  : Eff S X A :=
  match c with
  | Normal a => ret a
  | Throws m => throw (thrown_misuse m)
  end.

(** What a call of an executor amounts to: the effect of its body, which
    runs inside the constructor, and the effect of the reactions and other
    callbacks it has registered, which the host runs later.  Both act on the
    promise under construction. *)
Record Stages (X T E : Type) : Type := mkStages {
  now : Eff (Future X T E) X unit;
  later : Eff (Future X T E) X unit
}.
Arguments mkStages {X T E} _ _.
Arguments now {X T E} _.
Arguments later {X T E} _.

Definition Executor (X T E : Type) : Type :=
  (T -> Eff (Future X T E) X unit) -> (E -> Eff (Future X T E) X unit) -> Stages X T E.

(** [(value: T) => resolve(Result.ok(value))] *)
Definition settle_ok {X T E} (value : T) : Eff (Future X T E) X unit :=
  fun p => (Normal tt, resolve (Result.ok value) p).

(** [(reason: E) => resolve(Result.err(reason))] *)
Definition settle_err {X T E} (reason : E) : Eff (Future X T E) X unit :=
  fun p => (Normal tt, resolve (Result.err reason) p).

(** The promise when the constructor returns: the host's constructor calls
    the executor and rejects the promise with whatever it throws. *)
Definition constructed {X T E} (executor : Executor X T E) : Future X T E :=
  match now (executor settle_ok settle_err) Pending with
  | (Normal _, p) => p
  | (Throws x, p) => reject x p
  end.

(** [new Future(executor)], as the state the promise eventually reaches. *)
Definition constructor {X T E} (executor : Executor X T E) : Future X T E :=
  snd (later (executor settle_ok settle_err) (constructed executor)).

(** *** Arbitrary executors

    All that an executor can do to its Future is to call the two callbacks
    and, for its body, to throw. *)
Inductive Script (X T E : Type) : Type :=
| Return : Script X T E
| Throw (x : X) : Script X T E
| InvokeOk (value : T) (rest : Script X T E) : Script X T E
| InvokeErr (reason : E) (rest : Script X T E) : Script X T E.
Arguments Return {X T E}.
Arguments Throw {X T E} x.
Arguments InvokeOk {X T E} value rest.
Arguments InvokeErr {X T E} reason rest.

Fixpoint run_script {S X T E} (s : Script X T E)
    (ok : T -> Eff S X unit) (err : E -> Eff S X unit) : Eff S X unit :=
  match s with
  | Return => ret tt
  | Throw x => throw x
  | InvokeOk value rest => _ ← ok value; run_script rest ok err
  | InvokeErr reason rest => _ ← err reason; run_script rest ok err
  end.

(** The executor whose body does [body] and whose callbacks do [deferred]
    later. *)
Definition scripted {X T E} (body deferred : Script X T E) : Executor X T E :=
  fun ok err => mkStages (run_script body ok err) (run_script deferred ok err).

(** The Result of the first callback a script invokes. *)
Definition first_settlement {X T E} (s : Script X T E) : option (Result T E) :=
  match s with
  | InvokeOk value _ => Some (Result.ok value)
  | InvokeErr reason _ => Some (Result.err reason)
  | _ => None
  end.

(** The state a Future built on a scripted executor reaches, in closed form:
    the body throwing before any callback rejects it; otherwise the first
    callback invoked, by the body or later, fulfils it. *)
Definition outcome {X T E} (body deferred : Script X T E) : Future X T E :=
  match body with
  | Throw x => Rejected x
  | InvokeOk value _ => Fulfilled (Result.ok value)
  | InvokeErr reason _ => Fulfilled (Result.err reason)
  | Return =>
      match first_settlement deferred with
      | Some r => Fulfilled r
      | None => Pending
      end
  end.

(** The states of the promise after each step of a script, the promise being
    in state [p] before it; a throw ends the body and rejects the promise
    when [in_constructor] holds, and is lost otherwise. *)
Fixpoint history {X T E} (in_constructor : bool) (s : Script X T E) (p : Future X T E)
  : list (Future X T E) :=
  match s with
  | Return => []
  | Throw x => if in_constructor then [reject x p] else []
  | InvokeOk value rest =>
      let p' := snd (settle_ok value p) in p' :: history in_constructor rest p'
  | InvokeErr reason rest =>
      let p' := snd (settle_err reason p) in p' :: history in_constructor rest p'
  end.

(** All the states a Future built on [scripted body deferred] goes through. *)
Definition lifetime {X T E} (body deferred : Script X T E) : list (Future X T E) :=
  let h := history true body Pending in
  Pending :: h ++ history false deferred (List.last h Pending).

(** *** Factories *)

Section Factories.
Context {X T E : Type}.

(** [promise.then(ok).catch(err)] *)
Definition from_chain {S} (promise : State X T)
    (ok : T -> Eff S X unit) (err : X -> Eff S X unit) : Eff S X (State X unit) :=
  p ← then_ promise ok; catch_ p err.

Definition from (promise : State X T) : Future X T X :=
  constructor (fun ok err => mkStages (ret tt) (_ ← from_chain promise ok err; ret tt)).

(** [promise.then((result) => ...)] *)
Definition parse_chain {S} `{MisuseError X T E} (promise : State X (Result T E))
    (ok : T -> Eff S X unit) (err : E -> Eff S X unit) : Eff S X (State X unit) :=
  then_ promise (fun result =>
    if isOk result then value ← method (unwrap result); ok value
    else reason ← method (unwrapErr result); err reason).

Definition parse `{MisuseError X T E} (promise : State X (Result T E)) : Future X T E :=
  constructor (fun ok err => mkStages (ret tt) (_ ← parse_chain promise ok err; ret tt)).

Definition ok (value : T) : Future X T E :=
  constructor (fun ok _ => mkStages (ok value) (ret tt)).

Definition err (reason : E) : Future X T E :=
  constructor (fun _ err => mkStages (err reason) (ret tt)).

(** The loop of [join]: [errors] and [values] grow by [push]. *)
Fixpoint join_loop {S} `{MisuseError X T E} (results : list (Result T E))
    (errors : list E) (values : list T) : Eff S X (list E * list T) :=
  match results with
  | [] => ret (errors, values)
  | result :: rest =>
      if isOk result
      then value ← method (unwrap result); join_loop rest errors (values ++ [value])
      else reason ← method (unwrapErr result); join_loop rest (errors ++ [reason]) values
  end.

(** [Promise.all(futures).then((results) => ...)], the inputs settling in the
    order [order]. *)
Definition join_chain {S} `{MisuseError X T E} (futures : list (Future X T E))
    (order : list nat) (ok : list T -> Eff S X unit) (err : list E -> Eff S X unit)
  : Eff S X (State X unit) :=
  then_ (Promise.all futures order) (fun results =>
    '(errors, values) ← join_loop results [] [];
    if negb (Nat.eqb (length errors) 0) then err errors else ok values).

Definition join `{MisuseError X T E} (futures : list (Future X T E)) (order : list nat)
  : Future X (list T) (list E) :=
  constructor (fun ok err =>
    mkStages (ret tt) (_ ← join_chain futures order ok err; ret tt)).

End Factories.

(** *** What the specification says [join] collects *)

(** The payloads of the [Ok] results, in the order of the inputs. *)
Definition ok_payloads {T E} (results : list (Result T E)) : list T :=
  omap (fun r => match r with Ok value => Some value | Err _ => None end) results.

(** The payloads of the [Err] results, in the order of the inputs. *)
Definition err_payloads {T E} (results : list (Result T E)) : list E :=
  omap (fun r => match r with Ok _ => None | Err error => Some error end) results.

(** [Err(errorSequence)] when there is an error, [Ok(valueSequence)]
    otherwise. *)
Definition joined {T E} (results : list (Result T E)) : Result (list T) (list E) :=
  match err_payloads results with
  | [] => Result.ok (ok_payloads results)
  | errors => Result.err errors
  end.

(** *** The settled native promise of a Result, and [then] on a Future *)

(** The settled promise that stands for a Result in the host's two channels:
    fulfilled with the payload of [Ok], rejected with that of [Err]. *)
Definition settled_promise {X T} (r : Result T X) : State X T :=
  match r with
  | Ok value => Fulfilled value
  | Err error => Rejected error
  end.

(** [future.then(onFulfilled)], the method [Future] inherits.  The host
    makes the derived promise with the constructor of the receiver's class,
    [Future], handing it the executor that captures the resolving functions
    of the derived promise: what that executor receives from the constructor
    of [Future] are its two callbacks.  So the reaction job, which resolves
    the derived promise with what [onFulfilled] returns and rejects it with
    what [onFulfilled] throws or with the receiver's reason, goes through
    [ok] and [err]. *)
Definition then_derived {S X T E U} (future : Future X T E)
    (onFulfilled : Result T E -> Eff S X U) : Eff S X (Future X U X) :=
  fun s =>
    match future with
    | Pending =>
        (Normal (constructor (fun resolve reject => mkStages (ret tt) (ret tt))), s)
    | Fulfilled result =>
        match onFulfilled result s with
        | (Normal u, s') =>
            (Normal (constructor (fun resolve reject => mkStages (ret tt) (resolve u))), s')
        | (Throws x, s') =>
            (Normal (constructor (fun resolve reject => mkStages (ret tt) (reject x))), s')
        end
    | Rejected reason =>
        (Normal (constructor (fun resolve reject => mkStages (ret tt) (reject reason))), s)
    end.

End Future.

(** * Properties *)

(** ** Option *)

Section OptionProperties.
Import Option.
Context {S X : Type} `{HostError X}.

Lemma bind_unfold {A B} (m : Eff S X A) (k : A -> Eff S X B) (s : S) :
  (m ≫= k) s =
  match m s with
  | (Normal a, s') => k a s'
  | (Throws x, s') => (Throws x, s')
  end.
Proof. reflexivity. Qed.

Lemma unwrap_Some {T} (v : js T) (s : S) : unwrap (Some v) s = (Normal v, s).
Proof. reflexivity. Qed.

Lemma unwrap_None {T} (s : S) :
  unwrap (@None T) s = (Throws (new_Error unwrap_message), s).
Proof. reflexivity. Qed.

(** A call of a method other than [unwrap] returns when its callbacks do. *)
Lemma invoke_returns {T U R} (c : Call T U R) (this : Option T) (s : S) :
  callbacks_return c -> is_unwrap c = false ->
  exists r s', invoke c this s = (Normal r, s').
Proof.
  intros Hcb Hc. destruct this as [v [|]], c; simpl in *; try discriminate;
    unfold unwrapOr, unwrapOrElse, map, or, orElse, and, andThen, match_; simpl;
    try (eexists _, _; reflexivity).
  - destruct (Hcb v s) as (u & s' & Hf). rewrite bind_unfold, Hf. by eexists _, _.
  - apply Hcb.
  - apply Hcb.
  - apply Hcb.
  - apply Hcb.
  - apply Hcb.
Qed.

(** A throw that ends a call is that of [unwrap] on [None] or comes out of
    a callback of the call. *)
Lemma invoke_throws {T U R} (c : Call T U R) (this : Option T) (s s' : S) (x : X) :
  invoke c this s = (Throws x, s') ->
  (is_unwrap c = true /\ isNone this = true /\
   x = new_Error unwrap_message /\ s' = s) \/
  callback_throws c this s x s'.
Proof.
  destruct this as [v [|]], c; simpl;
    unfold unwrap, unwrapOr, unwrapOrElse, map, or, orElse, and, andThen, match_, isNone;
    simpl; intros Hthrow; try discriminate Hthrow; auto.
  - right. rewrite bind_unfold in Hthrow.
    destruct (f v s) as [[u|y] s1]; simpl in Hthrow; [ discriminate | by simplify_eq ].
  - left. unfold throw in Hthrow. by simplify_eq.
Qed.

(** C6. [unwrap] returns the payload of [Some(v)] and fails on [None()] with
    the error "Called Option::unwrap on None"; it is the only method that
    raises: a call of any method that ends by a throw is [unwrap] on [None],
    or has run a callback that threw; and a call of any other method whose
    callbacks return returns a value. *)
Theorem Option_unwrap_only_raises {T U R} (c : Call T U R) (this : Option T) (s : S) :
  (forall v : js T, unwrap (Some v) s = (Normal v, s)) /\
  unwrap (@None T) s = (Throws (new_Error unwrap_message), s) /\
  unwrap_message = ("Called Option::" +:+ "unwrap on None")%string /\
  (forall x s', invoke c this s = (Throws x, s') ->
     (is_unwrap c = true /\ isNone this = true /\
      x = new_Error unwrap_message /\ s' = s) \/
     callback_throws c this s x s') /\
  (callbacks_return c -> is_unwrap c = false ->
   exists r s', invoke c this s = (Normal r, s')).
Proof.
  split; [ intros v; apply unwrap_Some | ].
  split; [ apply unwrap_None | ].
  split; [ reflexivity | ].
  split; [ intros x s'; apply invoke_throws | apply invoke_returns ].
Qed.

(** C7. The function argument is not invoked on the inactive branch: on
    [None], [map] and [andThen] return [None] and leave the state as it is,
    whatever [f] would do to it, and on [Some(v)] so does [unwrapOrElse],
    which returns [v]; on [None], [unwrapOrElse(f)] is the call of [f].  With
    a counter on [f]: no invocation in the first three cases, one in the
    last.  On [Some(v)], [map(f).unwrap()] is [f(v)] and [andThen(f)] is
    [f(v)]. *)
Theorem Option_function_argument_laziness {T U} (s : S) (calls : nat) :
  (forall f : js T -> Eff S X (js U), map None f s = (Normal None, s)) /\
  (forall f : js T -> Eff S X (Option U), andThen None f s = (Normal None, s)) /\
  (forall (v : js T) (f : unit -> Eff S X (js T)),
     unwrapOrElse (Some v) f s = (Normal v, s)) /\
  (forall f : unit -> Eff S X (js T), unwrapOrElse None f s = f tt s) /\
  (forall f : js T -> Eff S X (js U),
     snd (map None (counted f) (calls, s)) = (calls, s)) /\
  (forall f : js T -> Eff S X (Option U),
     snd (andThen None (counted f) (calls, s)) = (calls, s)) /\
  (forall (v : js T) (f : unit -> Eff S X (js T)),
     snd (unwrapOrElse (Some v) (counted f) (calls, s)) = (calls, s)) /\
  (forall f : unit -> Eff S X (js T),
     fst (snd (unwrapOrElse None (counted f) (calls, s))) = Datatypes.S calls) /\
  (forall (v : js T) (f : js T -> Eff S X (js U)),
     (o ← map (Some v) f; unwrap o) s = f v s) /\
  (forall (v : js T) (f : js T -> Eff S X (Option U)),
     andThen (Some v) f s = f v s).
Proof.
  repeat split; try reflexivity.
  - intros f. unfold unwrapOrElse, counted. simpl. by destruct (f tt s).
  - intros v f. unfold map. simpl. rewrite !bind_unfold.
    by destruct (f v s) as [[u|x] s'].
Qed.

(** C10. The variant is decided by the tag alone: for every payload [v], the
    sentinel [undefined] included, [Some(v)] is Some, is not None and
    unwraps to [v]; [Some(undefined)] and [None()] hold the same payload and
    differ by their tag, hence in what [isSome], [isNone] and [unwrap]
    answer. *)
Theorem Option_Some_decided_by_tag {T} (v : js T) (s : S) :
  isSome (Some v) = true /\
  isNone (Some v) = false /\
  unwrap (Some v) s = (Normal v, s) /\
  _value (Some (@undefined T)) = _value (@None T) /\
  Some (@undefined T) <> None /\
  isSome (Some (@undefined T)) <> isSome (@None T) /\
  isNone (Some (@undefined T)) <> isNone (@None T) /\
  unwrap (Some (@undefined T)) s <> unwrap (@None T) s.
Proof.
  repeat split; try discriminate.
Qed.

End OptionProperties.

(** ** Future: the constructor *)

Section ConstructorProperties.
Import Result Promise Future.
Context {X T E : Type}.

Lemma resolve_settled {A} (a : A) (p : State X A) :
  is_pending p = false -> resolve a p = p.
Proof. by destruct p. Qed.

Lemma reject_settled {A} (x : X) (p : State X A) :
  is_pending p = false -> reject x p = p.
Proof. by destruct p. Qed.

Lemma settle_ok_unfold (value : T) (p : Future X T E) :
  settle_ok value p = (Normal tt, resolve (Result.ok value) p).
Proof. reflexivity. Qed.

Lemma settle_err_unfold (reason : E) (p : Future X T E) :
  settle_err reason p = (Normal tt, resolve (Result.err reason) p).
Proof. reflexivity. Qed.

(** Once the promise is settled a script does not change it, and leaves it
    settled if it throws. *)
Lemma run_script_settled (s : Script X T E) (p : Future X T E) :
  is_pending p = false -> snd (run_script s settle_ok settle_err p) = p.
Proof.
  intros Hp. induction s as [|x|value rest IH|reason rest IH]; simpl; try done.
  - rewrite bind_unfold, settle_ok_unfold. simpl. by rewrite resolve_settled.
  - rewrite bind_unfold, settle_err_unfold. simpl. by rewrite resolve_settled.
Qed.

Lemma last_cons_shift {A} (l : list A) (x d : A) :
  List.last (x :: l) d = List.last l x.
Proof.
  revert x d. induction l as [|y l IH]; intros x d; [done|].
  change (List.last (x :: y :: l) d) with (List.last (y :: l) d).
  by rewrite !IH.
Qed.

(** The states a script goes through are its successive effects. *)
Lemma history_last (s : Script X T E) (p : Future X T E) :
  List.last (history false s p) p = snd (run_script s settle_ok settle_err p).
Proof.
  revert p. induction s as [|x|value rest IH|reason rest IH]; intros p; simpl; try done.
  - rewrite bind_unfold, settle_ok_unfold, <- IH. apply last_cons_shift.
  - rewrite bind_unfold, settle_err_unfold, <- IH. apply last_cons_shift.
Qed.

Lemma history_last_body (s : Script X T E) (p : Future X T E) :
  List.last (history true s p) p =
  match run_script s settle_ok settle_err p with
  | (Normal _, q) => q
  | (Throws x, q) => reject x q
  end.
Proof.
  revert p. induction s as [|x|value rest IH|reason rest IH]; intros p; simpl; try done.
  - rewrite bind_unfold, settle_ok_unfold, <- IH. apply last_cons_shift.
  - rewrite bind_unfold, settle_err_unfold, <- IH. apply last_cons_shift.
Qed.

Lemma history_settled (b : bool) (s : Script X T E) (p : Future X T E) :
  is_pending p = false -> history b s p = replicate (length (history b s p)) p.
Proof.
  intros Hp. induction s as [|x|value rest IH|reason rest IH]; simpl.
  - done.
  - destruct b; simpl; [ | done ]. by rewrite reject_settled.
  - rewrite !resolve_settled by done. by rewrite <- IH.
  - rewrite !resolve_settled by done. by rewrite <- IH.
Qed.

Lemma last_replicate_cons {A} (n : nat) (x d : A) :
  List.last (x :: replicate n x) d = x.
Proof.
  rewrite last_cons_shift. induction n as [|n IH]; [done|].
  simpl replicate. by rewrite last_cons_shift.
Qed.

(** From its first entry on, a history is constant. *)
Lemma history_constant (b : bool) (s : Script X T E) (p : Future X T E) :
  history b s p = replicate (length (history b s p)) (List.last (history b s p) p).
Proof.
  destruct s as [|x|value rest|reason rest]; cbn [history].
  - done.
  - by destruct b.
  - rewrite settle_ok_unfold. cbn [snd].
    set (q := resolve (Result.ok value) p).
    assert (is_pending q = false) as Hq by (by destruct p).
    rewrite (history_settled b rest q Hq).
    generalize (length (history b rest q)). intros n.
    rewrite last_replicate_cons. cbn [length]. by rewrite length_replicate.
  - rewrite settle_err_unfold. cbn [snd].
    set (q := resolve (Result.err reason) p).
    assert (is_pending q = false) as Hq by (by destruct p).
    rewrite (history_settled b rest q Hq).
    generalize (length (history b rest q)). intros n.
    rewrite last_replicate_cons. cbn [length]. by rewrite length_replicate.
Qed.

(** No entry of a history is a pending promise. *)
Lemma history_no_pending (b : bool) (s : Script X T E) (p : Future X T E) :
  Forall (fun q => is_pending q = false) (history b s p).
Proof.
  revert p. induction s as [|x|value rest IH|reason rest IH]; intros p; simpl.
  - constructor.
  - destruct b; repeat constructor. by destruct p.
  - constructor; [ by destruct p | apply IH ].
  - constructor; [ by destruct p | apply IH ].
Qed.

Lemma constructed_scripted (body deferred : Script X T E) :
  constructed (scripted body deferred) = List.last (history true body Pending) Pending.
Proof.
  unfold constructed, scripted. simpl. rewrite history_last_body.
  by destruct (run_script body settle_ok settle_err Pending) as [[?|?] ?].
Qed.

Lemma constructor_scripted (body deferred : Script X T E) :
  constructor (scripted body deferred) =
  snd (run_script deferred settle_ok settle_err (constructed (scripted body deferred))).
Proof. reflexivity. Qed.

(** The lifetime of a Future: pending, then its final state for ever. *)
Lemma lifetime_shape (body deferred : Script X T E) :
  exists m, lifetime body deferred =
            Pending :: replicate m (constructor (scripted body deferred)).
Proof.
  rewrite constructor_scripted, constructed_scripted. unfold lifetime.
  set (h := history true body Pending).
  set (c := List.last h Pending).
  rewrite <- history_last.
  destruct (is_pending c) eqn:Hc.
  - assert (h = []) as ->.
    { pose proof (history_no_pending true body Pending) as Hall. fold h in Hall.
      pose proof (history_constant true body Pending) as Hconst. fold h c in Hconst.
      destruct h as [|q h']; [done|]. exfalso.
      rewrite Hconst in Hall. simpl in Hall. inversion Hall. congruence. }
    subst c. simpl. exists (length (history false deferred Pending)).
    f_equal. apply history_constant.
  - exists (length h + length (history false deferred c)).
    assert (List.last (history false deferred c) c = c) as ->.
    { rewrite history_last. by apply run_script_settled. }
    rewrite replicate_add. f_equal. f_equal.
    + apply history_constant.
    + by apply history_settled.
Qed.

Lemma constructed_settled (s : Script X T E) (p : Future X T E) :
  is_pending p = false ->
  (match run_script s settle_ok settle_err p with
   | (Normal _, q) => q
   | (Throws x, q) => reject x q
   end) = p.
Proof.
  intros Hp. pose proof (run_script_settled s p Hp) as Hq.
  destruct (run_script s settle_ok settle_err p) as [[?|x] q]; simpl in Hq; subst q.
  - done.
  - by apply reject_settled.
Qed.

Lemma constructor_outcome (body deferred : Script X T E) :
  constructor (scripted body deferred) = outcome body deferred.
Proof.
  rewrite constructor_scripted. unfold constructed, scripted. cbn [now later].
  destruct body as [|x|value rest|reason rest]; cbn [run_script outcome].
  - cbn. destruct deferred as [|x|value rest|reason rest]; cbn [run_script first_settlement];
      try done.
    + rewrite bind_unfold, settle_ok_unfold. by apply run_script_settled.
    + rewrite bind_unfold, settle_err_unfold. by apply run_script_settled.
  - cbn. by apply run_script_settled.
  - rewrite bind_unfold, settle_ok_unfold. cbn [resolve].
    rewrite constructed_settled by done. by apply run_script_settled.
  - rewrite bind_unfold, settle_err_unfold. cbn [resolve].
    rewrite constructed_settled by done. by apply run_script_settled.
Qed.

(** C5. A Future settles at most once.  A settlement callback settles a
    pending Future and does nothing to a settled one; over its whole lifetime, whatever the
    executor does in its body and whatever its callbacks do later, the
    Future is pending and then, for ever, in its final state; and the
    Result of the first callback invoked is that final state, the later
    calls (and a later throw) notwithstanding. *)
Theorem Future_settles_once (body deferred : Script X T E) :
  (forall (p : Future X T E) (value : T) (reason : E),
     snd (settle_ok value p) =
       (if is_pending p then Fulfilled (Result.ok value) else p) /\
     snd (settle_err reason p) =
       (if is_pending p then Fulfilled (Result.err reason) else p)) /\
  (exists m, lifetime body deferred =
             Pending :: replicate m (constructor (scripted body deferred))) /\
  (forall (value : T) (rest : Script X T E),
     constructor (scripted (InvokeOk value rest) deferred) = Fulfilled (Result.ok value) /\
     constructor (scripted Return (InvokeOk value rest)) = Fulfilled (Result.ok value)) /\
  (forall (reason : E) (rest : Script X T E),
     constructor (scripted (InvokeErr reason rest) deferred) = Fulfilled (Result.err reason) /\
     constructor (scripted Return (InvokeErr reason rest)) = Fulfilled (Result.err reason)).
Proof.
  split; [ by intros [] | ].
  split; [ apply lifetime_shape | ].
  split; intros; by rewrite !constructor_outcome.
Qed.

End ConstructorProperties.

(** ** Promise.all *)

Section AllProperties.
Import Promise.
Context {X A : Type}.
Implicit Types (inputs : list (State X A)) (order delivered : list nat).
Implicit Types (values : list (option A)) (r : AllRecord X A).

Lemma unset_replicate (n : nat) : unset (replicate n (@None A)) = n.
Proof. induction n as [|n IH]; simpl; [done|]. by rewrite IH. Qed.

Lemma unset_lookup values (i : nat) : values !! i = Some None -> unset values <> 0.
Proof.
  revert i. induction values as [|v values IH]; intros i Hi; [done|].
  destruct i as [|i]; simpl in Hi.
  - by simplify_eq.
  - destruct v; simpl; [ by eapply IH | done ].
Qed.

Lemma unset_insert values (i : nat) (x : A) :
  values !! i = Some None -> unset (<[i := Some x]> values) = pred (unset values).
Proof.
  revert i. induction values as [|v values IH]; intros i Hi; [done|].
  destruct i as [|i]; simpl in Hi.
  - by simplify_eq.
  - destruct v; simpl; [ by apply IH | ].
    rewrite (IH i Hi). pose proof (unset_lookup values i Hi). lia.
Qed.

(** With no empty slot the array handed over is the list of the slots'
    values. *)
Lemma CreateArrayFromList_full (l : list A) : CreateArrayFromList (Some <$> l) = l.
Proof.
  unfold CreateArrayFromList. induction l as [|a l IH]; csimpl; [done|].
  by rewrite IH.
Qed.

Lemma unset_full (l : list A) : unset (Some <$> l) = 0.
Proof. by induction l. Qed.

Lemma first_rejection_snoc inputs delivered (i : nat) :
  first_rejection inputs (delivered ++ [i]) =
  match first_rejection inputs delivered with
  | Some reason => Some reason
  | None =>
      match inputs !! i with
      | Some (Rejected reason) => Some reason
      | _ => None
      end
  end.
Proof.
  induction delivered as [|j delivered IH]; simpl.
  - by destruct (inputs !! i) as [[]|].
  - by destruct (inputs !! j) as [[]|].
Qed.

Lemma all_invariant_start inputs : all_invariant inputs [] (all_start (length inputs)).
Proof.
  unfold all_invariant, all_start. simpl.
  split; [ by rewrite length_replicate | ].
  split; [ | split; [ by rewrite unset_replicate | ] ].
  - intros j x. split.
    + intros Hj. apply lookup_replicate in Hj as [? _]. done.
    + intros [Hj _]. by apply elem_of_nil in Hj.
  - by destruct inputs.
Qed.

(** A delivery that leaves the record as it is keeps the invariant, unless
    it is the delivery of a fulfilled input to an empty slot or of a
    rejection. *)
Lemma all_invariant_skip inputs delivered r (i : nat) :
  all_invariant inputs delivered r ->
  (forall x, inputs !! i = Some (Fulfilled x) -> all_values r !! i = Some (Some x)) ->
  (forall reason, inputs !! i <> Some (Rejected reason)) ->
  all_invariant inputs (delivered ++ [i]) r.
Proof.
  intros (HL & HV & HR & HP) Hfull Hrej.
  split; [done|]. split; [ | split; [done|] ].
  - intros j x. rewrite HV, elem_of_app, list_elem_of_singleton. split.
    + intros [? ?]. auto.
    + intros [[Hj | ->] Hx]; [done|]. apply HV. by apply Hfull.
  - rewrite first_rejection_snoc, HP.
    destruct (first_rejection inputs delivered); [done|].
    destruct (inputs !! i) as [[| |reason]|] eqn:Hi; try done.
    by destruct (Hrej reason).
Qed.

Lemma all_invariant_deliver inputs delivered r (i : nat) :
  all_invariant inputs delivered r ->
  all_invariant inputs (delivered ++ [i]) (deliver inputs r i).
Proof.
  intros Hinv. pose proof Hinv as (HL & HV & HR & HP).
  unfold deliver. destruct (inputs !! i) as [[|x|reason]|] eqn:Hi.
  - apply all_invariant_skip; by rewrite ?Hi.
  - unfold resolve_element.
    destruct (all_values r !! i) as [[y|]|] eqn:Hslot.
    + apply all_invariant_skip; rewrite ?Hi; try done.
      intros x' [= <-]. destruct (proj1 (HV _ _) Hslot) as [_ Hy]. by simplify_eq.
    + assert (i < length (all_values r)) as Hlt by (by eapply lookup_lt_Some).
      pose proof (unset_lookup _ _ Hslot) as Hpos.
      split; [ simpl; by rewrite length_insert | ].
      split; [ | split; [ simpl; rewrite unset_insert by done; by rewrite HR | ] ].
      * intros j x'. cbn [all_values].
        rewrite elem_of_app, list_elem_of_singleton.
        destruct (decide (j = i)) as [->|Hne].
        -- rewrite list_lookup_insert_eq by done. split.
           ++ intros [= <-]. auto.
           ++ intros [_ Hx']. by simplify_eq.
        -- rewrite list_lookup_insert_ne by done. rewrite HV. split.
           ++ intros [? ?]. auto.
           ++ by intros [[?|?] ?].
      * cbn [all_promise remainingElementsCount all_values].
        rewrite first_rejection_snoc, Hi, HP, HR.
        destruct (first_rejection inputs delivered) as [reason|].
        -- by destruct (pred (unset (all_values r))).
        -- destruct (unset (all_values r)) as [|[|k]]; done.
    + apply lookup_ge_None in Hslot. apply lookup_lt_Some in Hi. lia.
  - assert (all_values r !! i = Some None) as Hslot.
    { assert (i < length (all_values r)) as Hlt.
      { rewrite HL. by eapply lookup_lt_Some. }
      apply lookup_lt_is_Some in Hlt as [[y|] Hy]; [ | done ].
      destruct (proj1 (HV _ _) Hy) as [_ Hy']. by simplify_eq. }
    pose proof (unset_lookup _ _ Hslot) as Hpos.
    split; [done|]. split; [ | split; [done|] ].
    + intros j x. cbn [reject_element all_values].
      rewrite HV, elem_of_app, list_elem_of_singleton. split.
      * intros [? ?]. auto.
      * intros [[Hj | ->] Hx]; [done|]. by simplify_eq.
    + cbn [reject_element all_promise remainingElementsCount].
      rewrite first_rejection_snoc, Hi, HP, HR.
      destruct (first_rejection inputs delivered); [done|].
      by destruct (unset (all_values r)).
  - apply all_invariant_skip; by rewrite ?Hi.
Qed.

(** The invariant holds of every run of [Promise.all]. *)
Lemma all_invariant_run inputs order : all_invariant inputs order (all_run inputs order).
Proof.
  unfold all_run. induction order as [|i order IH] using rev_ind.
  - apply all_invariant_start.
  - rewrite foldl_snoc. by apply all_invariant_deliver.
Qed.


(** While an input has not been delivered, and no rejection has, the returned
    promise is pending. *)
Lemma all_pending inputs delivered (i : nat) :
  i < length inputs -> i ∉ delivered -> first_rejection inputs delivered = None ->
  all inputs delivered = Pending.
Proof.
  intros Hi Hnot Hfirst.
  destruct (all_invariant_run inputs delivered) as (HL & HV & HR & HP).
  unfold all. rewrite HP, Hfirst, HR.
  assert (all_values (all_run inputs delivered) !! i = Some None) as Hslot.
  { rewrite <- HL in Hi. apply lookup_lt_is_Some in Hi as [[y|] Hy]; [ | done ].
    by destruct (proj1 (HV _ _) Hy) as [? _]. }
  pose proof (unset_lookup _ _ Hslot).
  by destruct (unset (all_values (all_run inputs delivered))).
Qed.

Lemma first_rejection_fulfilled (l : list A) order :
  first_rejection (Fulfilled <$> l : list (State X A)) order = None.
Proof.
  induction order as [|i order IH]; simpl; [done|].
  rewrite list_lookup_fmap. by destruct (l !! i).
Qed.

(** Once every input has been fulfilled, in whatever order, the returned
    promise is fulfilled with their values in the order of the inputs. *)
Lemma all_fulfilled (l : list A) order :
  order ≡ₚ seq 0 (length l) ->
  all (Fulfilled <$> l : list (State X A)) order = Fulfilled l.
Proof.
  intros Hperm.
  destruct (all_invariant_run (Fulfilled <$> l : list (State X A)) order)
    as (HL & HV & HR & HP).
  rewrite length_fmap in HL.
  assert (all_values (all_run (Fulfilled <$> l : list (State X A)) order) = Some <$> l)
    as Hvalues.
  { apply list_eq. intros j. rewrite list_lookup_fmap.
    destruct (l !! j) as [a|] eqn:Hj; simpl.
    - apply HV. split.
      + rewrite Hperm. apply elem_of_seq. apply lookup_lt_Some in Hj. lia.
      + by rewrite list_lookup_fmap, Hj.
    - apply lookup_ge_None. rewrite HL. by apply lookup_ge_None. }
  unfold all. rewrite HP, first_rejection_fulfilled, HR, Hvalues, unset_full.
  by rewrite CreateArrayFromList_full.
Qed.

(** With no input the returned promise is fulfilled from the start. *)
Lemma all_empty order : all ([] : list (State X A)) order = Fulfilled [].
Proof.
  unfold all, all_run. simpl.
  induction order as [|i order IH] using rev_ind; [done|].
  rewrite foldl_snoc. by unfold deliver.
Qed.

Lemma first_rejection_elem inputs order (i : nat) (x : X) :
  i ∈ order -> inputs !! i = Some (Rejected x) ->
  exists reason, first_rejection inputs order = Some reason.
Proof.
  intros Hin Hi. induction order as [|j order IH]; [ by apply elem_of_nil in Hin | ].
  simpl. apply elem_of_cons in Hin as [<-|Hin].
  - rewrite Hi. by eexists.
  - destruct (inputs !! j) as [[| |reason]|]; eauto.
Qed.

Lemma first_rejection_Some inputs order (reason : X) :
  first_rejection inputs order = Some reason ->
  exists i, i ∈ order /\ inputs !! i = Some (Rejected reason).
Proof.
  induction order as [|j order IH]; simpl; [done|].
  destruct (inputs !! j) as [[| |reason']|] eqn:Hj; intros Hfirst;
    try (destruct (IH Hfirst) as (i & ? & ?); exists i; split; [ by right | done ]).
  simplify_eq. exists j. split; [ by left | done ].
Qed.

End AllProperties.

(** ** Future: the factories *)

Section FactoryProperties.
Import Result Promise Future.
Context {X T E : Type} `{MisuseError X T E}.

(** The loop of [join] computes the two sequences of the specification, and
    neither throws nor touches the state. *)
Lemma join_loop_payloads {S} (results : list (Result T E)) (errors : list E)
    (values : list T) (s : S) :
  join_loop results errors values s =
  (Normal (errors ++ err_payloads results, values ++ ok_payloads results), s).
Proof.
  revert errors values.
  induction results as [|[value|error] results IH]; intros errors values; simpl.
  - by rewrite !app_nil_r.
  - rewrite bind_unfold. simpl. rewrite IH. unfold ok_payloads, err_payloads. csimpl.
    by rewrite <- app_assoc.
  - rewrite bind_unfold. simpl. rewrite IH. unfold ok_payloads, err_payloads. csimpl.
    by rewrite <- app_assoc.
Qed.

(** The Future returned by [join] follows the promise of [Promise.all]: its
    fulfilment settles the Future, anything else leaves it pending. *)
Lemma join_cases (futures : list (Future X T E)) (order : list nat) :
  join futures order =
  match Promise.all futures order with
  | Fulfilled results => Fulfilled (joined results)
  | _ => Pending
  end.
Proof.
  unfold join, constructor, constructed, join_chain. cbn [now later].
  rewrite bind_unfold. unfold then_.
  destruct (Promise.all futures order) as [|results|reason]; try done.
  rewrite bind_unfold, join_loop_payloads. unfold joined. simpl.
  by destruct (err_payloads results).
Qed.


Lemma parse_cases (promise : State X (Result T E)) :
  parse promise =
  match promise with
  | Fulfilled result => Fulfilled result
  | _ => Pending
  end.
Proof. by destruct promise as [|[value|error]|reason]. Qed.

(** C1. When every input Future settles, [join] settles once all of them
    have: as long as the settlement of an input is outstanding the joined
    Future is pending, and once the inputs have settled, in whatever order,
    it is settled to [Err] of the [Err] payloads when there is one and to
    [Ok] of the [Ok] payloads otherwise, both sequences in the order of the
    inputs. *)
Theorem Future_join_collects_in_input_order (results : list (Result T E))
    (order : list nat) :
  order ≡ₚ seq 0 (length results) ->
  join (Fulfilled <$> results : list (Future X T E)) order =
    Fulfilled (match err_payloads results with
               | [] => Result.ok (ok_payloads results)
               | errors => Result.err errors
               end) /\
  (forall (delivered : list nat) (i : nat),
     i < length results -> i ∉ delivered ->
     join (Fulfilled <$> results : list (Future X T E)) delivered = Pending).
Proof.
  intros Hperm. split.
  - by rewrite join_cases, all_fulfilled.
  - intros delivered i Hi Hnot. rewrite join_cases.
    rewrite (all_pending _ delivered i); try done.
    + by rewrite length_fmap.
    + apply first_rejection_fulfilled.
Qed.

(** C9. [join] of no Future is settled to [Ok] of the empty sequence. *)
Theorem Future_join_empty (order : list nat) :
  join ([] : list (Future X T E)) order = Fulfilled (Result.ok []).
Proof. rewrite join_cases. unfold Future. by rewrite all_empty. Qed.


(** C3. When the promise given to [parse] is rejected, neither callback is
    invoked (the state is as it was, whatever they would do to it), the
    promise derived by [then] is rejected with the reason, which nothing
    handles, and the Future is left pending; an [Err] Result yielded by
    the promise settles the Future to that [Err]. *)
Theorem Future_parse_native_failure (reason : X) :
  parse (Rejected reason) = Pending /\
  (forall S (ok : T -> Eff S X unit) (err : E -> Eff S X unit) (s : S),
     parse_chain (Rejected reason) ok err s = (Normal (Rejected reason), s)) /\
  (forall (calls : nat) (p : Future X T E),
     snd (parse_chain (Rejected reason) (counted settle_ok) (counted settle_err)
            (calls, p)) = (calls, p)) /\
  (forall error : E, parse (Fulfilled (Result.err error)) = Fulfilled (Result.err error)).
Proof. done. Qed.

(** C8. [from] of a promise fulfilled with [v] is settled to [ok(v)], and
    [from] of a promise rejected with [e] is settled to [err(e)]. *)
Theorem Future_from_settles (value : T) (reason : X) :
  from (Fulfilled value : State X T) = Fulfilled (Result.ok value) /\
  from (Rejected reason : State X T) = Fulfilled (Result.err reason).
Proof. done. Qed.

Lemma from_cases (promise : State X T) :
  from promise =
  match promise with
  | Pending => Pending
  | Fulfilled value => Fulfilled (Result.ok value)
  | Rejected reason => Fulfilled (Result.err reason)
  end.
Proof. by destruct promise. Qed.

(** C2, as amended. A Future is rejected exactly when the body of its
    executor throws before it has invoked a callback; in every other case
    it is pending or fulfilled with a Result, that of the first callback
    invoked.  The Futures of the factories [ok], [err], [from], [parse] and
    [join] are never rejected. *)
Theorem Future_rejected_only_by_throwing_executor (body deferred : Script X T E) :
  constructor (scripted body deferred) = outcome body deferred /\
  (is_rejected (constructor (scripted body deferred)) = true <->
   exists x, body = Throw x) /\
  (forall value : T, (ok value : Future X T E) = Fulfilled (Result.ok value)) /\
  (forall reason : E, (err reason : Future X T E) = Fulfilled (Result.err reason)) /\
  (forall promise : State X T, is_rejected (from promise) = false) /\
  (forall promise : State X (Result T E), is_rejected (parse promise) = false) /\
  (forall (futures : list (Future X T E)) (order : list nat),
     is_rejected (join futures order) = false).
Proof.
  split; [ apply constructor_outcome | ].
  split; [ | repeat split ]; try done.
  - rewrite constructor_outcome. split.
    + destruct body as [|x|value rest|reason rest]; simpl; try done.
      * by destruct (first_settlement deferred).
      * intros _. by exists x.
    + by intros [x ->].
  - intros promise. rewrite from_cases. by destruct promise.
  - intros promise. rewrite parse_cases. by destruct promise.
  - intros futures order. rewrite join_cases. by destruct (Promise.all futures order).
Qed.

End FactoryProperties.

(** ** Concrete cases *)

Section Cases.
Import Result Promise Future.

(** The cases of [test/Future.test.ts]. *)

Example test_from :
  from (Fulfilled 1 : State string nat) = Fulfilled (Result.ok 1) /\
  from (Rejected "error"%string : State string nat) = Fulfilled (Result.err "error"%string).
Proof. split; reflexivity. Qed.

Example test_parse :
  parse (H := Misuse_self) (Fulfilled (Result.ok 1 : Result nat nat))
    = Fulfilled (Result.ok 1) /\
  parse (H := Misuse_self) (Fulfilled (Result.err 2 : Result nat nat))
    = Fulfilled (Result.err 2).
Proof. split; reflexivity. Qed.

Example test_ok : (Future.ok 42 : Future string nat nat) = Fulfilled (Result.ok 42).
Proof. reflexivity. Qed.

Example test_err : (Future.err 13 : Future string nat nat) = Fulfilled (Result.err 13).
Proof. reflexivity. Qed.

Example test_join_ok :
  join (H := Misuse_self) ([Future.ok 1; Future.ok 2] : list (Future _ nat nat)) [0; 1]
    = Fulfilled (Result.ok [1; 2]).
Proof. reflexivity. Qed.

Example test_join_err :
  join (H := Misuse_self)
    ([Future.ok 0; Future.err 1; Future.err 2] : list (Future _ nat nat)) [1; 2; 0]
    = Fulfilled (Result.err [1; 2]).
Proof. reflexivity. Qed.

(** "join reject": the fourth input is [from] of a promise rejected with no
    reason; it is settled to [Err(undefined)] and is collected with the
    other errors. *)
Example test_join_reject :
  join (H := fun m => match m with UnwrapOnErr error => error | UnwrapErrOnOk value => defined value end)
    [Future.ok 0; Future.err (defined 1); Future.err (defined 2);
     from (Rejected undefined : State (js nat) nat)] [0; 1; 2; 3]
    = Fulfilled (Result.err [defined 1; defined 2; undefined]).
Proof. reflexivity. Qed.

(** C2 as stated fails: the Future of an executor that throws is rejected. *)
Lemma Future_never_rejects_counterexample :
  constructor (scripted (Throw "boom"%string) Return : Executor string nat nat)
    = Rejected "boom"%string /\
  ~ (forall body deferred : Script string nat nat,
       is_rejected (constructor (scripted body deferred)) = false).
Proof.
  split; [ reflexivity | ].
  intros Hnever. specialize (Hnever (Throw "boom"%string) Return). discriminate Hnever.
Qed.

(** The inputs [ok(0)], [err(1)], [err(2)], settling last first. *)
Lemma Future_join_collects_in_input_order_witness :
  [2; 0; 1] ≡ₚ seq 0 3 /\
  join (H := Misuse_self) (Fulfilled <$> [Ok 0; Err 1; Err 2]) [2; 0; 1]
    = Fulfilled (Result.err [1; 2]).
Proof.
  assert ([2; 0; 1] ≡ₚ seq 0 3) as Hperm by apply (Permutation_cons_app [0; 1] [] 2), reflexivity.
  split; [ exact Hperm | ].
  exact (proj1 (@Future_join_collects_in_input_order (Misuse nat nat) nat nat Misuse_self
                  [Ok 0; Err 1; Err 2] [2; 0; 1] Hperm)).
Defined.

(** A [map] whose callback returns its argument. *)
Lemma Option_unwrap_only_raises_witness :
  Option.callbacks_return
    (Option.call_map nat nat (fun v : js nat => ret v : Eff unit string (js nat))) /\
  exists r s',
    Option.invoke (Option.call_map nat nat (fun v : js nat => ret v : Eff unit string (js nat)))
      (Option.Some (defined 1)) tt = (Normal r, s').
Proof.
  assert (Option.callbacks_return
            (Option.call_map nat nat (fun v : js nat => ret v : Eff unit string (js nat))))
    as Hcb by (intros a s; exists a, s; reflexivity).
  split; [ exact Hcb | ].
  destruct (Option_unwrap_only_raises
              (Option.call_map nat nat (fun v : js nat => ret v : Eff unit string (js nat)))
              (Option.Some (defined 1)) tt) as (_ & _ & _ & _ & Hreturns).
  apply Hreturns; [ exact Hcb | reflexivity ].
Defined.

End Cases.

(** * Further properties *)

(** ** Option: how the methods compose *)

Section OptionComposition.
Import Option.
Context {S X : Type} `{HostError X}.

(** [andThen] is associative: chaining [g] after [andThen(f)] is [andThen]
    of the chained function. *)
Theorem Option_andThen_assoc {T U V} (o : Option T)
    (f : js T -> Eff S X (Option U)) (g : js U -> Eff S X (Option V)) (s : S) :
  (r ← andThen o f; andThen r g) s = andThen o (fun v => r ← f v; andThen r g) s.
Proof. by destruct o as [v []]. Qed.

(** On an Option made by the factories, [andThen(Some)] returns an Option
    of the same variant and the same payload: equal to the receiver field by
    field.  (For a Some receiver the code returns a new object; the identity
    of objects is not part of the model.) *)
Theorem Option_andThen_Some_identity {T} (o : Option T) (s : S) :
  from_factory o -> andThen (X:=X) o (fun v => ret (Some v)) s = (Normal o, s).
Proof. by intros [->|[v ->]]. Qed.

(** [map(f)] then [map(g)] is [map] of [g] after [f], effects and throws
    included. *)
Theorem Option_map_compose {T U V} (o : Option T)
    (f : js T -> Eff S X (js U)) (g : js U -> Eff S X (js V)) (s : S) :
  (r ← map o f; map r g) s = map o (fun v => u ← f v; g u) s.
Proof.
  destruct o as [v []]; [ | done ].
  unfold map. simpl. rewrite !bind_unfold.
  by destruct (f v s) as [[u|x] s'].
Qed.

(** [map] and [and] are instances of [andThen]: [map(f)] is [andThen] of
    [f] followed by [Some], and [and(other)] is [andThen] of the function
    that returns [other]. *)
Theorem Option_map_and_by_andThen {T U} (o : Option T) (f : js T -> Eff S X (js U))
    (other : Option U) (s : S) :
  map o f s = andThen o (fun v => u ← f v; ret (Some u)) s /\
  and (X:=X) o other s = andThen o (fun _ => ret other) s.
Proof. by destruct o as [v []]. Qed.

(** [or] and [and] are associative and never throw; the result of [or] is
    Some when one of the two is, that of [and] when both are, and it is one
    of the Options given (or [None], for [and]). *)
Theorem Option_or_and_algebra {T U V} (a b c : Option T) (d : Option U) (e : Option V)
    (s : S) :
  (r ← or (X:=X) a b; or r c) s = (r ← or b c; or a r) s /\
  (r ← and (X:=X) a d; and r e) s = (r ← and d e; and a r) s /\
  (exists r, or (X:=X) a b s = (Normal r, s) /\
     isSome r = isSome a || isSome b /\ (r = a \/ r = b)) /\
  (exists r, and (X:=X) a d s = (Normal r, s) /\
     isSome r = isSome a && isSome d /\ (r = d \/ r = None)).
Proof.
  split; [ by destruct a as [? []], b as [? []] | ].
  split; [ by destruct a as [? []], d as [? []] | ].
  split.
  - destruct a as [va []]; eexists; (split; [ reflexivity | ]); simpl; auto.
  - destruct a as [va []]; eexists; (split; [ reflexivity | ]); simpl; auto.
Qed.

(** The lazy methods with a function that just returns a value are the
    eager ones: [orElse(() => other)] is [or(other)] and
    [unwrapOrElse(() => d)] is [unwrapOr(d)]. *)
Theorem Option_lazy_eager_agree {T} (o other : Option T) (d : js T) (s : S) :
  orElse (X:=X) o (fun _ => ret other) s = or o other s /\
  unwrapOrElse (X:=X) o (fun _ => ret d) s = unwrapOr o d s.
Proof. by destruct o as [v []]. Qed.

(** [match] runs exactly one of its two functions, once: the one of the
    variant, on the payload.  [unwrapOrElse(f)] is [match] with the identity
    on the Some side. *)
Theorem Option_match_one_branch {T U} (o : Option T)
    (some : js T -> Eff S X (js U)) (none : unit -> Eff S X (js U))
    (f : unit -> Eff S X (js T)) (calls : nat) (s : S) :
  fst (snd (match_ o (counted some) (counted none) (calls, s))) = Datatypes.S calls /\
  match_ o some none s = (if isSome o then some (_value o) s else none tt s) /\
  unwrapOrElse o f s = match_ o (fun v => ret v) f s.
Proof.
  destruct o as [v []]; simpl; unfold match_, counted; simpl; repeat split.
  - by destruct (some v s).
  - by destruct (none tt s).
Qed.

(** [unwrapOr] never throws and leaves the state alone; what it returns is
    what [unwrap] returns when [unwrap] does, and the default otherwise. *)
Theorem Option_unwrapOr_total {T} (o : Option T) (d : js T) (s : S) :
  exists v, unwrapOr (X:=X) o d s = (Normal v, s) /\
    (isSome o = true -> unwrap o s = (Normal v, s)) /\
    (isSome o = false -> v = d /\ exists x, unwrap o s = (Throws x, s)).
Proof.
  destruct o as [v []]; eexists; (split; [ reflexivity | ]); simpl; split; try done.
  intros _. split; [ done | by eexists ].
Qed.

(** The methods keep Options within what the factories make: [map] always,
    the others when the Options they are given, and those their function
    returns, are. *)
Theorem Option_methods_keep_factory_made {T U} (o other : Option T) (d : Option U)
    (f : js T -> Eff S X (js U)) (g : js T -> Eff S X (Option U))
    (h : unit -> Eff S X (Option T)) (s s' : S) (r : Option U) (r' : Option T) :
  from_factory o -> from_factory other -> from_factory d ->
  (forall v s0 s1 q, g v s0 = (Normal q, s1) -> from_factory q) ->
  (forall s0 s1 q, h tt s0 = (Normal q, s1) -> from_factory q) ->
  (map o f s = (Normal r, s') -> from_factory r) /\
  (andThen o g s = (Normal r, s') -> from_factory r) /\
  (and (X:=X) o d s = (Normal r, s') -> from_factory r) /\
  (or (X:=X) o other s = (Normal r', s') -> from_factory r') /\
  (orElse o h s = (Normal r', s') -> from_factory r').
Proof.
  intros Ho Hother Hd Hg Hh.
  assert (forall (A : Type) (q q' : Option A) (t t' : S),
            ret (X:=X) q t = (Normal q', t') -> from_factory q -> from_factory q')
    as Hret by (intros A q q' t t' [= <- <-]; done).
  assert (from_factory (@None U)) as HnoneU by (by left).
  repeat split; intros Hr.
  - unfold map in Hr. destruct o as [v []]; simpl in Hr.
    + rewrite bind_unfold in Hr. destruct (f v s) as [[u|x] s1]; [ | done ].
      injection Hr as <- <-. right. by eexists.
    + by eapply Hret.
  - unfold andThen in Hr. destruct o as [v []]; simpl in Hr.
    + by eapply Hg.
    + by eapply Hret.
  - unfold and in Hr. destruct o as [v []]; simpl in Hr; by eapply Hret.
  - unfold or in Hr. destruct (_isSome o); by eapply Hret.
  - unfold orElse in Hr. destruct (_isSome o).
    + by eapply Hret.
    + by eapply Hh.
Qed.

End OptionComposition.

(** ** Promise.all: what a fulfilment tells *)

Section AllConverse.
Import Promise.
Context {X A : Type}.
Implicit Types (inputs : list (State X A)) (order : list nat).
Implicit Types (values : list (option A)).

Lemma unset_zero values : unset values = 0 -> values = Some <$> CreateArrayFromList values.
Proof.
  unfold CreateArrayFromList.
  induction values as [|[a|] values IH]; csimpl; intros Hzero; try done.
  by rewrite <- IH.
Qed.

(** The returned promise is fulfilled only when every input is fulfilled and
    has been delivered, and then with the inputs' values in their order. *)
Lemma all_Fulfilled_inv inputs order (l : list A) :
  all inputs order = Fulfilled l ->
  inputs = Fulfilled <$> l /\ forall i, i < length inputs -> i ∈ order.
Proof.
  unfold all. intros Hall.
  destruct (all_invariant_run inputs order) as (HL & HV & HR & HP).
  rewrite Hall in HP.
  destruct (first_rejection inputs order); [ done | ].
  destruct (remainingElementsCount (all_run inputs order)) eqn:Hrem; [ | done ].
  injection HP as ->. symmetry in HR. apply unset_zero in HR.
  set (l := CreateArrayFromList (all_values (all_run inputs order))) in *.
  assert (length l = length inputs) as Hlen.
  { rewrite <- HL, HR at 1. by rewrite length_fmap. }
  assert (forall j x, l !! j = Some x ->
            j ∈ order /\ inputs !! j = Some (Fulfilled x)) as Hslots.
  { intros j x Hj. apply HV. by rewrite HR, list_lookup_fmap, Hj. }
  split.
  - apply list_eq. intros j. rewrite list_lookup_fmap.
    destruct (l !! j) as [x|] eqn:Hj; simpl.
    + by destruct (Hslots j x Hj).
    + apply lookup_ge_None. rewrite <- Hlen. by apply lookup_ge_None.
  - intros i Hi. rewrite <- Hlen in Hi.
    apply lookup_lt_is_Some in Hi as [x Hx]. by destruct (Hslots i x Hx).
Qed.

(** Two runs that deliver the same inputs leave the same slots. *)
Lemma all_values_same_deliveries inputs (order1 order2 : list nat) :
  (forall i, i ∈ order1 <-> i ∈ order2) ->
  all_values (all_run inputs order1) = all_values (all_run inputs order2).
Proof.
  intros Hsame.
  destruct (all_invariant_run inputs order1) as (HL1 & HV1 & _ & _).
  destruct (all_invariant_run inputs order2) as (HL2 & HV2 & _ & _).
  apply list_eq. intros j.
  destruct (all_values (all_run inputs order1) !! j) as [[x|]|] eqn:H1.
  - symmetry. apply HV2. rewrite <- Hsame. by apply HV1.
  - assert (j < length (all_values (all_run inputs order2))) as Hlt.
    { rewrite HL2, <- HL1. by eapply lookup_lt_Some. }
    apply lookup_lt_is_Some in Hlt as [[y|] Hy]; [ | done ].
    apply HV2 in Hy. rewrite <- Hsame in Hy. apply HV1 in Hy. congruence.
  - symmetry. apply lookup_ge_None. rewrite HL2, <- HL1. by apply lookup_ge_None.
Qed.

Lemma first_rejection_None inputs order :
  first_rejection inputs order = None <->
  forall i reason, i ∈ order -> inputs !! i <> Some (Rejected reason).
Proof.
  split.
  - intros Hnone i reason Hin Hi.
    destruct (first_rejection_elem inputs order i reason Hin Hi) as [? ?]. congruence.
  - intros Hno. destruct (first_rejection inputs order) as [reason|] eqn:Hfirst; [ | done ].
    apply first_rejection_Some in Hfirst as (i & Hin & Hi). by destruct (Hno i reason Hin).
Qed.

(** Two runs that deliver the same inputs end alike: both rejected, or in the
    same state. *)
Lemma all_same_deliveries inputs (order1 order2 : list nat) :
  (forall i, i ∈ order1 <-> i ∈ order2) ->
  (is_rejected (all inputs order1) = true /\ is_rejected (all inputs order2) = true) \/
  all inputs order1 = all inputs order2.
Proof.
  intros Hsame. pose proof (all_values_same_deliveries inputs order1 order2 Hsame) as Hvalues.
  destruct (all_invariant_run inputs order1) as (_ & _ & HR1 & HP1).
  destruct (all_invariant_run inputs order2) as (_ & _ & HR2 & HP2).
  unfold all. rewrite HP1, HP2, HR1, HR2, Hvalues.
  destruct (first_rejection inputs order1) as [reason1|] eqn:H1,
           (first_rejection inputs order2) as [reason2|] eqn:H2; auto.
  - exfalso. apply first_rejection_Some in H1 as (i & Hin & Hi).
    apply Hsame in Hin. rewrite first_rejection_None in H2. by eapply H2.
  - exfalso. apply first_rejection_Some in H2 as (i & Hin & Hi).
    apply Hsame in Hin. rewrite first_rejection_None in H1. by eapply H1.
Qed.

End AllConverse.

(** ** Future: more on the factories *)

Section FutureComposition.
Import Result Promise Future.
Context {X T E : Type} `{MisuseError X T E}.

Lemma payloads_of_Ok (values : list T) :
  err_payloads (Ok <$> values : list (Result T E)) = [] /\
  ok_payloads (Ok <$> values : list (Result T E)) = values.
Proof.
  unfold err_payloads, ok_payloads.
  induction values as [|v values [IHe IHo]]; csimpl; [done|]. by rewrite IHe, IHo.
Qed.

Lemma err_payloads_nil (results : list (Result T E)) :
  err_payloads results = [] -> results = Ok <$> ok_payloads results.
Proof.
  unfold err_payloads, ok_payloads.
  induction results as [|[v|e] results IH]; csimpl; intros Hnil; try done.
  by rewrite <- IH.
Qed.

Lemma joined_Ok (results : list (Result T E)) (values : list T) :
  joined results = Ok values <-> results = Ok <$> values.
Proof.
  unfold joined. split.
  - destruct (err_payloads results) eqn:Herr; [ | done ].
    intros [= <-]. by apply err_payloads_nil.
  - intros ->. destruct (payloads_of_Ok values) as [-> ->]. done.
Qed.

Lemma joined_Err (results : list (Result T E)) (errors : list E) :
  joined results = Err errors -> errors <> [] /\ errors = err_payloads results.
Proof.
  unfold joined. destruct (err_payloads results) eqn:Herr; [ done | ].
  by intros [= <-].
Qed.

Lemma err_payloads_elem (results : list (Result T E)) :
  err_payloads results <> [] -> exists error, Err error ∈ results.
Proof.
  unfold err_payloads.
  induction results as [|[v|e] results IH]; csimpl; intros Hne; [ done | | ].
  - destruct (IH Hne) as [error Hin]. exists error. by right.
  - exists e. by left.
Qed.

(** What [join] settles to depends on which inputs have settled, not on the
    order in which they did. *)
Theorem Future_join_order_independent (futures : list (Future X T E))
    (order1 order2 : list nat) :
  (forall i, i ∈ order1 <-> i ∈ order2) ->
  join futures order1 = join futures order2.
Proof.
  intros Hsame. rewrite !join_cases.
  destruct (all_same_deliveries futures order1 order2 Hsame) as [[H1 H2]| ->]; [ | done ].
  by destruct (Promise.all futures order1), (Promise.all futures order2).
Qed.

(** [join] settles only once every input has settled to a Result, and then
    to what their Results make: it never settles early, on a part of the
    inputs. *)
Theorem Future_join_settles_only_when_all_have (futures : list (Future X T E))
    (order : list nat) (r : Result (list T) (list E)) :
  join futures order = Fulfilled r ->
  exists results : list (Result T E),
    futures = Fulfilled <$> results /\
    r = joined results /\
    forall i, i < length futures -> i ∈ order.
Proof.
  rewrite join_cases.
  destruct (Promise.all futures order) as [|results|reason] eqn:Hall; try done.
  intros [= <-]. apply all_Fulfilled_inv in Hall as [Hinputs Hall].
  by exists results.
Qed.

(** An input that never settles keeps the joined Future pending, whatever
    the other inputs do: an [Err] among them does not settle it. *)
Theorem Future_join_waits_for_pending_input (futures : list (Future X T E))
    (order : list nat) (i : nat) :
  futures !! i = Some Pending -> join futures order = Pending.
Proof.
  intros Hi. rewrite join_cases.
  destruct (Promise.all futures order) as [|results|reason] eqn:Hall; try done.
  apply all_Fulfilled_inv in Hall as [-> _].
  rewrite list_lookup_fmap in Hi. by destruct (results !! i).
Qed.

(** Once the inputs have settled, [join] is [Ok] exactly when every input
    is, and then of all their payloads; when it is [Err] the error sequence
    is not empty and holds the payloads of the [Err] inputs. *)
Theorem Future_join_Ok_iff_all_Ok (results : list (Result T E)) (order : list nat)
    (values : list T) :
  order ≡ₚ seq 0 (length results) ->
  (join (Fulfilled <$> results : list (Future X T E)) order = Fulfilled (Ok values) <->
   results = Ok <$> values) /\
  (forall errors : list E,
     join (Fulfilled <$> results : list (Future X T E)) order = Fulfilled (Err errors) ->
     errors <> [] /\ errors = err_payloads results /\
     exists error, Err error ∈ results).
Proof.
  intros Hperm. rewrite join_cases, all_fulfilled by done. split.
  - rewrite <- joined_Ok. split; [ by intros [= ->] | by intros -> ].
  - intros errors [= Hjoined]. apply joined_Err in Hjoined as [Hne ->].
    repeat split; [ done | by apply err_payloads_elem ].
Qed.

(** A Future that is not rejected passes through [parse] unchanged, and
    [parse] of [parse] is [parse]. *)
Theorem Future_parse_retraction (future : Future X T E) :
  is_rejected future = false ->
  parse future = future /\ parse (parse future) = parse future.
Proof. intros Hnot. rewrite !parse_cases. by destruct future. Qed.

(** [then] on a Future makes a Future, through the callbacks of the
    constructor: it is never rejected; what the reaction returns comes out
    wrapped in [Ok], what it throws and the rejection of the receiver come
    out as [Err].  So [then] with the identity does not give the Future
    back: its Result is wrapped once more. *)
Theorem Future_then_wraps {S U} (future : Future X T E)
    (onFulfilled : Result T E -> Eff S X U) (s : S) :
  (exists derived s', then_derived future onFulfilled s = (Normal derived, s') /\
     is_rejected derived = false) /\
  (forall result u s', onFulfilled result s = (Normal u, s') ->
     then_derived (Fulfilled result) onFulfilled s = (Normal (Fulfilled (Ok u)), s')) /\
  (forall result x s', onFulfilled result s = (Throws x, s') ->
     then_derived (Fulfilled result) onFulfilled s = (Normal (Fulfilled (Err x)), s')) /\
  (forall reason : X,
     then_derived (Rejected reason : Future X T E) onFulfilled s
       = (Normal (Fulfilled (Err reason)), s)) /\
  (forall result : Result T E,
     then_derived (Fulfilled result : Future X T E) (fun r => ret r) s
       = (Normal (Fulfilled (Ok result)), s)).
Proof.
  repeat split.
  - destruct future as [|result|reason]; simpl; [ by eexists _, _ | | by eexists _, _ ].
    destruct (onFulfilled result s) as [[u|x] s']; by eexists _, _.
  - intros result u s' Hreturn. simpl. by rewrite Hreturn.
  - intros result x s' Hthrow. simpl. by rewrite Hthrow.
Qed.

End FutureComposition.

Section FutureFrom.
Import Result Promise Future.
Context {X T : Type} `{MisuseError X T X}.

(** [from] and the view of a Result as a settled promise are inverse: the
    Future of the promise of a Result is settled to it, a Future of [from]
    settled to a Result was made from the promise of that Result, and it is
    pending only on a promise that never settles. *)
Theorem Future_from_round_trip (promise : State X T) (r : Result T X) :
  from (settled_promise r) = Fulfilled r /\
  (from promise = Fulfilled r <-> promise = settled_promise r) /\
  (from promise = Pending <-> promise = Pending).
Proof.
  split; [ by destruct r | ].
  rewrite from_cases. split.
  - destruct promise, r; simpl; split; intros Heq; simplify_eq; done.
  - destruct promise; split; intros Heq; simplify_eq; done.
Qed.

(** [join] of Futures made by [from]: once the promises have settled, the
    values of the fulfilled ones are the value sequence and the reasons of
    the rejected ones the error sequence, in the order of the inputs; a
    rejected promise makes the joined Future [Err], it does not reject it or
    leave it pending. *)
Theorem Future_join_from_collects_rejections (results : list (Result T X))
    (order : list nat) :
  order ≡ₚ seq 0 (length results) ->
  join (from <$> (settled_promise <$> results)) order =
    Fulfilled (match err_payloads results with
               | [] => Result.ok (ok_payloads results)
               | errors => Result.err errors
               end).
Proof.
  intros Hperm.
  assert (from <$> (settled_promise <$> results)
          = (Fulfilled <$> results : list (Future X T X))) as ->.
  { rewrite <- list_fmap_compose. apply list_fmap_ext. intros _ r _. by destruct r. }
  by rewrite join_cases, all_fulfilled.
Qed.

(** The factories agree: [ok(v)] settles as [from] of a promise fulfilled
    with [v] and as [parse] of a promise of [Ok(v)]; [err(e)] as [from] of a
    promise rejected with [e] and as [parse] of a promise of [Err(e)]. *)
Theorem Future_factories_agree (value : T) (reason : X) :
  (Future.ok value : Future X T X) = from (Fulfilled value) /\
  (Future.ok value : Future X T X) = parse (Fulfilled (Result.ok value)) /\
  (Future.err reason : Future X T X) = from (Rejected reason) /\
  (Future.err reason : Future X T X) = parse (Fulfilled (Result.err reason)).
Proof. done. Qed.

End FutureFrom.

(** ** More concrete cases *)

Section MoreCases.
Import Result Promise Future.

Lemma Option_andThen_Some_identity_witness :
  Option.from_factory (Option.Some (defined 1)) /\
  Option.andThen (S:=unit) (X:=string) (Option.Some (defined 1))
    (fun v => ret (Option.Some v)) tt = (Normal (Option.Some (defined 1)), tt).
Proof.
  assert (Option.from_factory (Option.Some (defined 1))) as Hmade
    by (right; exists (defined 1); reflexivity).
  split; [ exact Hmade | ].
  exact (Option_andThen_Some_identity (S:=unit) (X:=string) (Option.Some (defined 1)) tt Hmade).
Defined.

(** [Some(1).map(v => v)] and [None().orElse(() => None())]. *)
Lemma Option_methods_keep_factory_made_witness :
  Option.from_factory (Option.Some (defined 1) : Option.Option nat) /\
  Option.from_factory (@Option.None nat).
Proof.
  assert (Option.from_factory (Option.Some (defined 1) : Option.Option nat)) as Hsome
    by (right; exists (defined 1); reflexivity).
  assert (Option.from_factory (@Option.None nat)) as Hnone by (left; reflexivity).
  destruct (Option_methods_keep_factory_made (S:=unit) (X:=string) (T:=nat) (U:=nat)
              (Option.Some (defined 1)) Option.None Option.None
              (fun v => ret v) (fun v => ret (Option.Some v)) (fun _ => ret Option.None)
              tt tt (Option.Some (defined 1)) (Option.Some (defined 1))
              Hsome Hnone Hnone)
    as (Hmap & _ & _ & _ & _).
  - intros v s0 s1 q [= <- _]. right. exists v. reflexivity.
  - intros s0 s1 q [= <- _]. exact Hnone.
  - split; [ apply Hmap; reflexivity | exact Hnone ].
Defined.

(** [ok(0)] and [err(1)], settling in either order. *)
Lemma Future_join_order_independent_witness :
  join (H := Misuse_self) ([Future.ok 0; Future.err 1] : list (Future _ nat nat)) [0; 1]
  = join (H := Misuse_self) [Future.ok 0; Future.err 1] [1; 0].
Proof.
  apply (@Future_join_order_independent (Misuse nat nat) nat nat Misuse_self).
  intros i. rewrite !elem_of_cons, !elem_of_nil. tauto.
Defined.

Lemma Future_join_settles_only_when_all_have_witness :
  exists results : list (Result nat nat),
    ([Future.ok 1] : list (Future (Misuse nat nat) nat nat)) = Fulfilled <$> results /\
    Ok [1] = joined results.
Proof.
  destruct (@Future_join_settles_only_when_all_have (Misuse nat nat) nat nat Misuse_self
              [Future.ok 1] [0] (Ok [1]))
    as (results & Hfutures & Hjoined & _).
  - reflexivity.
  - exists results. split; [ exact Hfutures | exact Hjoined ].
Defined.

(** [err(1)] and an input that never settles. *)
Lemma Future_join_waits_for_pending_input_witness :
  join (H := Misuse_self) ([Future.err 1; Pending] : list (Future _ nat nat)) [0] = Pending.
Proof.
  apply (@Future_join_waits_for_pending_input (Misuse nat nat) nat nat Misuse_self
           [Future.err 1; Pending] [0] 1).
  reflexivity.
Defined.

Lemma Future_join_Ok_iff_all_Ok_witness :
  [1; 0] ≡ₚ seq 0 2 /\
  join (H := Misuse_self) (Fulfilled <$> [Ok 1; Ok 2] : list (Future _ nat nat)) [1; 0]
    = Fulfilled (Ok [1; 2]).
Proof.
  assert ([1; 0] ≡ₚ seq 0 2) as Hperm by apply perm_swap.
  split; [ exact Hperm | ].
  apply (@Future_join_Ok_iff_all_Ok (Misuse nat nat) nat nat Misuse_self
           [Ok 1; Ok 2] [1; 0] [1; 2] Hperm).
  reflexivity.
Defined.

Lemma Future_parse_retraction_witness :
  parse (H := Misuse_self) (Fulfilled (Err 3) : Future _ nat nat) = Fulfilled (Err 3).
Proof.
  apply (@Future_parse_retraction (Misuse nat nat) nat nat Misuse_self (Fulfilled (Err 3))).
  reflexivity.
Defined.

(** A promise fulfilled with 0 and a promise rejected with "no", the second
    settling first. *)
Lemma Future_join_from_collects_rejections_witness :
  [1; 0] ≡ₚ seq 0 2 /\
  join (H := fun _ => "misuse"%string)
    (from <$> [Fulfilled 0; Rejected "no"%string]) [1; 0]
    = Fulfilled (Err ["no"%string]).
Proof.
  assert ([1; 0] ≡ₚ seq 0 2) as Hperm by apply perm_swap.
  split; [ exact Hperm | ].
  exact (@Future_join_from_collects_rejections string nat (fun _ => "misuse"%string)
           [Ok 0; Err "no"%string] [1; 0] Hperm).
Defined.

End MoreCases.

(** ** Native failures and [join] *)

Section JoinNativeFailure.
Import Result Promise Future.
Context {X T : Type}.




End JoinNativeFailure.

Section JoinNativeFailureCases.
Import Result Promise Future.


End JoinNativeFailureCases.
